(** * go-template-secrets: template composition, cache and dispatch

    A shallow embedding of [main.go].  The program builds, for each page of a
    fixed list, one composed [html/template] unit, keeps the units in a map
    keyed by page name, and registers two HTTP handlers that execute a cached
    unit.  The only helper function it defines itself is [dict].

    The Go libraries the program calls ([html/template], [net/http]) are not
    part of the program; they appear here as interfaces ([TemplateEngine],
    [ServeMux]) and every statement about [main] holds for all their
    implementations. *)

From stdpp Require Import base gmap strings list.
From Equations Require Import Equations.

Open Scope string_scope.

(** ** Go values

    [interface{}] values, as far as the program builds and inspects them:
    [dict] receives arbitrary values, type-asserts keys to [string], and
    produces a [map[string]interface{}], which is itself a value that can be
    passed on (to a template, or to another [dict] call). *)

#[warnings="-register-all"]
Inductive any : Type :=
| ANil
| ABool (b : bool)
| AInt (n : Z)
| AString (s : string)
| AMap (m : gmap string any).

(** [v.(string)] in its two-result form: [Some s] when the dynamic type of
    [v] is [string], [None] (that is, [ok = false]) otherwise. *)
Definition asString (v : any) : option string :=
  match v with
  | AString s => Some s
  | _ => None
  end.

Definition error := string.

(** The three ways a Go call can end: a value, a non-nil [error], or a
    run-time panic (an index out of range, a nil dereference). *)
Inductive result (A : Type) : Type :=
| Ok (a : A)
| Err (e : error)
| Panic.
Arguments Ok {A} a.
Arguments Err {A} e.
Arguments Panic {A}.

Definition result_map {A B : Type} (f : A → B) (r : result A) : result B :=
  match r with
  | Ok a => Ok (f a)
  | Err e => Err e
  | Panic => Panic
  end.

(** ** The [dict] helper (main.go, lines 34-47) *)

(** The [for i := 0; i < len(values); i += 2] loop.  [values[i]] and
    [values[i+1]] are Go index expressions, which panic out of range. *)
Equations? dict_loop (values : list any) (i : nat) (d : gmap string any)
  : result (gmap string any) by wf (length values - i) lt :=
  dict_loop values i d with decide (i < length values) => {
    | right _ := Ok d
    | left _ with values !! i => {
      | None := Panic
      | Some k with asString k => {
        | None := Err "dict keys must be strings"
        | Some key with values !! (i + 1) => {
          | None := Panic
          | Some v := dict_loop values (i + 2) (<[key := v]> d) } } } }.
Proof. lia. Qed.

Definition dict (values : list any) : result (gmap string any) :=
  if decide (length values `mod` 2 ≠ 0) then Err "invalid dict call"
  else dict_loop values 0 ∅.

(** The same loop, read off the part of [values] that is still ahead of the
    index.  Used to reason about [dict_loop] by induction on the list. *)
Fixpoint bind_pairs (rest : list any) (d : gmap string any)
  : result (gmap string any) :=
  match rest with
  | [] => Ok d
  | k :: rest' =>
      match asString k with
      | None => Err "dict keys must be strings"
      | Some key =>
          match rest' with
          | [] => Panic
          | v :: rest'' => bind_pairs rest'' (<[key := v]> d)
          end
      end
  end.

(** Position [i] of [values] is a key position holding the string [k],
    followed by [v]. *)
Definition pair_at (values : list any) (i : nat) (k : string) (v : any) : Prop :=
  Nat.Even i ∧ values !! i = Some (AString k) ∧ values !! (i + 1) = Some v.

(** No key position of [values] after [i] holds the string [k]. *)
Definition last_key_at (values : list any) (i : nat) (k : string) : Prop :=
  ∀ j, i < j → Nat.Even j → values !! j ≠ Some (AString k).

(** Every key position of [values] holds a string. *)
Definition all_keys_strings (values : list any) : Prop :=
  ∀ i v, Nat.Even i → values !! i = Some v → ∃ s, v = AString s.

(** Some key position of [values] holds something that is not a string. *)
Definition bad_key (values : list any) : Prop :=
  ∃ i v, Nat.Even i ∧ values !! i = Some v ∧ asString v = None.

(** ** The libraries, as the program uses them *)

(** A helper callable from template markup, and [template.FuncMap]. *)
Definition GoFunc : Type := list any → result any.
Abbreviation FuncMap := (gmap string GoFunc).

(** [html/template].  Go's methods mutate their receiver and return it; no
    template of the program is aliased, so each method is a function from
    the receiver to the resulting template.  [ParseFiles] reads the file
    system; [Execute] returns the bytes it wrote to its writer together with
    its error, if any.  The writer is not a parameter of [template_Execute]:
    the statements below either are conditional on what one call of
    [Execute] returns or concern one and the same request, and none of them
    compares calls on the writers of two requests. *)
Class TemplateEngine : Type := {
  Template : Type;
  FileSystem : Type;
  template_New : string → Template;
  template_Funcs : Template → FuncMap → Template;
  template_ParseFiles : FileSystem → Template → list string → error + Template;
  template_Execute : Template → any → string * option error;
}.

Record Request : Type := { req_method : string; req_path : string }.

(** [net/http]'s default multiplexer: which of the registered patterns, if
    any, a request is dispatched to. *)
Class ServeMux : Type := {
  mux_match : list string → Request → option string;
}.

(** ** The process *)

(** The two function literals passed to [http.HandleFunc]. *)
Inductive handler : Type :=
| HRoot     (* main.go, lines 119-124 *)
| HAbout.   (* main.go, lines 126-131 *)

(** What the server does with one request: the handler returned after
    writing [body]; the handler panicked (the server recovers and drops the
    connection); no pattern matched. *)
Inductive response : Type :=
| Body (body : string)
| Aborted
| NotFound.

Section Process.
Context `{TemplateEngine}.

(** What the environment gives the process: the result of [os.Getwd], the
    files on disk, and whether [http.ListenAndServe] fails at once. *)
Record OS : Type := {
  os_getwd : error + string;
  os_files : FileSystem;
  os_listen : option error;
}.

(** Calls into the libraries, in the order the process makes them.  The
    template events carry the receiver of the call. *)
Inductive event : Type :=
| EvPrintln (line : string)
| EvNew (name : string)
| EvFuncs (t : Template) (fm : FuncMap)
| EvParseFiles (t : Template) (filenames : list string)
| EvHandleFunc (pattern : string)
| EvListenAndServe (addr : string)
| EvExecute (t : Template) (data : any) (written : string)
| EvFatal (msg : string).

Record Proc : Type := {
  cache : gmap string Template;
  mux : list (string * handler);
  listening : bool;
  log : list event;
}.

Definition init_proc : Proc :=
  {| cache := ∅; mux := []; listening := false; log := [] |}.

(** A computation either goes on with a value, or the process has exited
    ([os.Exit], which [log.Fatal] calls, or [main] returning). *)
Inductive outcome (A : Type) : Type :=
| Running (a : A) (p : Proc)
| Exited (code : Z) (p : Proc).
Arguments Running {A} a p.
Arguments Exited {A} code p.

Definition M (A : Type) : Type := Proc → outcome A.

Definition ret {A : Type} (a : A) : M A := λ p, Running a p.

Definition bind {A B : Type} (c : M A) (k : A → M B) : M B :=
  λ p, match c p with
       | Running a p' => k a p'
       | Exited code p' => Exited code p'
       end.

Definition add_log (p : Proc) (evs : list event) : Proc :=
  {| cache := cache p; mux := mux p;
     listening := listening p; log := log p ++ evs |}.

Definition emit (e : event) : M unit := λ p, Running tt (add_log p [e]).

(** The events of the loop that fills the cache. *)
Definition composer_event (e : event) : bool :=
  match e with
  | EvNew _ | EvFuncs _ _ | EvParseFiles _ _ | EvFatal _ => true
  | _ => false
  end.

Definition exit {A : Type} (code : Z) : M A := λ p, Exited code p.

Definition get_cache : M (gmap string Template) := λ p, Running (cache p) p.

Definition get_mux : M (list (string * handler)) := λ p, Running (mux p) p.

Definition state_of {A : Type} (o : outcome A) : Proc :=
  match o with
  | Running _ p => p
  | Exited _ p => p
  end.
End Process.

Arguments Running {_ A} a p.
Arguments Exited {_ A} code p.

Declare Scope proc_scope.
Delimit Scope proc_scope with proc.
Notation "'let*' x := c 'in' k" := (bind c (λ x, k))
  (at level 10, x name, c at level 100, k at level 200) : proc_scope.
Notation "c >> k" := (bind c (λ _, k))
  (at level 100, k at level 200, right associativity) : proc_scope.

(** ** The program (main.go, [func main]) *)

Section Program.
Context `{TemplateEngine} `{ServeMux}.
Open Scope proc_scope.

(** *** Library calls, with their entry in the log *)

Definition Println (line : string) : M unit := emit (EvPrintln line).

(** [log.Fatal]: print, then [os.Exit(1)]. *)
Definition log_Fatal {A : Type} (msg : string) : M A :=
  emit (EvFatal msg) >> exit 1.

Definition New (name : string) : M Template :=
  emit (EvNew name) >> ret (template_New name).

Definition Funcs (t : Template) (fm : FuncMap) : M Template :=
  emit (EvFuncs t fm) >> ret (template_Funcs t fm).

Definition ParseFiles (os : OS) (t : Template) (filenames : list string)
  : M (error + Template) :=
  emit (EvParseFiles t filenames) >>
  ret (template_ParseFiles (os_files os) t filenames).

(** [t.Execute(w, data)]: the bytes written to [w], and the error. *)
Definition Execute (t : Template) (data : any) : M (string * option error) :=
  let r := template_Execute t data in
  emit (EvExecute t data r.1) >> ret r.

Definition HandleFunc (pattern : string) (h : handler) : M unit :=
  emit (EvHandleFunc pattern) >>
  λ p, Running tt {| cache := cache p; mux := mux p ++ [(pattern, h)];
                     listening := listening p; log := log p |}.

(** [http.ListenAndServe] either fails at once and returns its error, or
    starts accepting requests and does not return. *)
Definition ListenAndServe (os : OS) (addr : string) : M (option error) :=
  emit (EvListenAndServe addr) >>
  match os_listen os with
  | Some err => ret (Some err)
  | None =>
      λ p, Running None {| cache := cache p; mux := mux p;
                           listening := true; log := log p |}
  end.

(** [cache := make(map[string]*template.Template)] and [cache[page] = t]. *)
Definition cache_make : M unit :=
  λ p, Running tt {| cache := ∅; mux := mux p;
                     listening := listening p; log := log p |}.

Definition cache_put (page : string) (t : Template) : M unit :=
  λ p, Running tt {| cache := <[page := t]> (cache p); mux := mux p;
                     listening := listening p; log := log p |}.

(** *** main.go, lines 30-48 *)

Definition pages : list string := ["home"; "about"].

Definition funcMap : FuncMap :=
  {[ "dict" := λ values, result_map AMap (dict values) ]}.

(** The four arguments of [ParseFiles] (lines 56-59). *)
Definition fragment_files (dir page : string) : list string :=
  [ dir ++ "/templates/layout.tmpl";
    dir ++ "/templates/sidebar.tmpl";
    dir ++ "/templates/pages/" ++ page ++ ".tmpl";
    dir ++ "/templates/headline.tmpl" ].

(** *** The body of the loop over [pages] (lines 51-64) *)

Definition compose (os : OS) (dir page : string) : M Template :=
  let* goTpl := New "layout.tmpl" in
  let* goTpl := Funcs goTpl funcMap in
  let* r := ParseFiles os goTpl (fragment_files dir page) in
  match r with
  | inl err => log_Fatal ("error parsing files: " ++ err)
  | inr goTpl => ret goTpl
  end.

Fixpoint compose_all (os : OS) (dir : string) (ps : list string) : M unit :=
  match ps with
  | [] => ret tt
  | page :: ps' =>
      let* goTpl := compose os dir page in
      cache_put page goTpl >>
      compose_all os dir ps'
  end.

(** *** The handlers (lines 119-131) *)

(** [cache[page].Execute(w, data)] followed by the error check.  A page
    missing from the map reads as a nil [*Template], whose [Execute]
    dereferences nil. *)
Definition render (page : string) (data : any) : M response :=
  let* c := get_cache in
  match c !! page with
  | None => ret Aborted
  | Some t =>
      let* r := Execute t data in
      match r.2 with
      | Some err => log_Fatal ("can't execute template. " ++ err)
      | None => ret (Body r.1)
      end
  end.

(** [map[string]interface{}{"name": "Jan"}] *)
Definition home_data : any := AMap {[ "name" := AString "Jan" ]}.

Definition run_handler (h : handler) (r : Request) : M response :=
  match h with
  | HRoot => render "home" home_data
  | HAbout => render "about" ANil
  end.

(** The routes the two registrations set up: pattern, page looked up in the
    cache, data the page is executed with. *)
Definition routes : list (string * string * any) :=
  [("/", "home", home_data); ("/about", "about", ANil)].

(** *** main *)

Definition main (os : OS) : M unit :=
  match os_getwd os with
  | inl err =>
      Println ("Can't get working dir.  " ++ err) >>
      log_Fatal err
  | inr dir =>
      Println ("Working directory:  " ++ dir) >>
      cache_make >>
      compose_all os dir pages >>
      HandleFunc "/" HRoot >>
      HandleFunc "/about" HAbout >>
      Println "Serving..." >>
      let* err := ListenAndServe os ":8080" in
      match err with
      | Some _ => exit 0
      | None => ret tt
      end
  end.

(** *** The server, once [ListenAndServe] accepts requests *)

Fixpoint find_handler (pattern : string) (registered : list (string * handler))
  : option handler :=
  match registered with
  | [] => None
  | (pat, h) :: registered' =>
      if decide (pat = pattern) then Some h
      else find_handler pattern registered'
  end.

(** One request: the multiplexer picks one of the registered patterns, and
    the handler registered for it runs. *)
Definition serve (r : Request) : M response :=
  let* registered := get_mux in
  match mux_match registered.*1 r with
  | None => ret NotFound
  | Some pattern =>
      match find_handler pattern registered with
      | None => ret NotFound
      | Some h => run_handler h r
      end
  end.

Fixpoint serve_all (rs : list Request) : M (list response) :=
  match rs with
  | [] => ret []
  | r :: rs' =>
      let* x := serve r in
      let* xs := serve_all rs' in
      ret (x :: xs)
  end.
End Program.

(** *** Reachable server states *)

Section Reachable.
Context `{TemplateEngine} `{ServeMux}.

Definition result_of {A : Type} (o : outcome A) : option A :=
  match o with
  | Running a _ => Some a
  | Exited _ _ => None
  end.

(** [serving os q]: [main] got as far as accepting requests, and [q] is
    the state of the process after it has served some of them. *)
Inductive serving (os : OS) : Proc → Prop :=
| serving_start p :
    main os init_proc = Running tt p → serving os p
| serving_step q r x q' :
    serving os q → serve r q = Running x q' → serving os q'.
End Reachable.

(** ** A small engine to run the program on

    [html/template] and [net/http] themselves are not modelled.  To evaluate
    the program on concrete inputs, this module implements the two interfaces
    by a miniature engine: a file is a sequence of literal texts and helper
    calls, parsing fails on a missing file or on a call to a helper that is
    not registered, executing writes the texts in order and stops at the
    first helper call that returns an error. *)

Module Demo.
Inductive node : Type :=
| Text (s : string)
| Call (f : string) (args : list any).

Record tmpl : Type := {
  t_name : string;
  t_funcs : FuncMap;
  t_nodes : list node;
}.

Definition known (fm : FuncMap) (n : node) : bool :=
  match n with
  | Text _ => true
  | Call f _ => match fm !! f with Some _ => true | None => false end
  end.

Fixpoint parse_files (fs : gmap string (list node)) (t : tmpl)
    (filenames : list string) : error + tmpl :=
  match filenames with
  | [] => inr t
  | f :: filenames' =>
      match fs !! f with
      | None => inl ("open " ++ f ++ ": no such file or directory")
      | Some nodes =>
          if forallb (known (t_funcs t)) nodes
          then parse_files fs
                 {| t_name := t_name t; t_funcs := t_funcs t;
                    t_nodes := t_nodes t ++ nodes |} filenames'
          else inl ("template: " ++ f ++ ": function not defined")
      end
  end.

Fixpoint exec (fm : FuncMap) (nodes : list node) (out : string)
  : string * option error :=
  match nodes with
  | [] => (out, None)
  | Text s :: nodes' => exec fm nodes' (out ++ s)
  | Call f args :: nodes' =>
      match fm !! f with
      | None => (out, Some ("template: " ++ f ++ " is not a defined function"))
      | Some g =>
          match g args with
          | Ok _ => exec fm nodes' out
          | Err e => (out, Some ("error calling " ++ f ++ ": " ++ e))
          | Panic => (out, Some ("error calling " ++ f ++ ": panic"))
          end
      end
  end.

#[export] Instance engine : TemplateEngine := {|
  Template := tmpl;
  FileSystem := gmap string (list node);
  template_New name := {| t_name := name; t_funcs := ∅; t_nodes := [] |};
  template_Funcs t fm :=
    {| t_name := t_name t; t_funcs := fm ∪ t_funcs t; t_nodes := t_nodes t |};
  template_ParseFiles := parse_files;
  template_Execute t data := exec (t_funcs t) (t_nodes t) "";
|}.

(** A pattern equal to the path wins; otherwise ["/"], when registered. *)
#[export] Instance servemux : ServeMux := {|
  mux_match patterns r :=
    if bool_decide (req_path r ∈ patterns) then Some (req_path r)
    else if bool_decide ("/" ∈ patterns) then Some "/"
    else None;
|}.

Definition shared_files : gmap string (list node) :=
  {[ "/srv/templates/layout.tmpl" := [Text "<body>"];
     "/srv/templates/sidebar.tmpl" := [Text "<aside/>"];
     "/srv/templates/headline.tmpl" := [Text "<h1/>"] ]}.

(** Both pages present and well formed. *)
Definition os_good : OS := {|
  os_getwd := inr "/srv";
  os_files :=
    <["/srv/templates/pages/home.tmpl" :=
        [Call "dict" [AString "color"; AString "black"]; Text "home"]]>
    (<["/srv/templates/pages/about.tmpl" := [Text "about"]]> shared_files);
  os_listen := None;
|}.

(** [pages/about.tmpl] is missing. *)
Definition os_no_about : OS := {|
  os_getwd := inr "/srv";
  os_files :=
    <["/srv/templates/pages/home.tmpl" := [Text "home"]]> shared_files;
  os_listen := None;
|}.

(** [pages/about.tmpl] parses, and calls [dict] with one argument. *)
Definition os_bad_call : OS := {|
  os_getwd := inr "/srv";
  os_files :=
    <["/srv/templates/pages/home.tmpl" := [Text "home"]]>
    (<["/srv/templates/pages/about.tmpl" :=
         [Text "about"; Call "dict" [AString "color"]]]> shared_files);
  os_listen := None;
|}.

Definition get (path : string) : Request :=
  {| req_method := "GET"; req_path := path |}.

(** The state [main] ends in, and the unit the cache of a state holds for
    a page. *)
Definition started (os : OS) : Proc := state_of (main os init_proc).

Definition cached (p : Proc) (page : string) : tmpl :=
  default (template_New "") (cache p !! page).
End Demo.

(** ** Vocabulary for further properties *)

(** The argument sequence that spells out a list of bindings:
    [k1, v1, k2, v2, ...]. *)
Fixpoint args_of (l : list (string * any)) : list any :=
  match l with
  | [] => []
  | (k, v) :: l' => AString k :: v :: args_of l'
  end.

Section Startup.
Context `{TemplateEngine} `{ServeMux}.

(** The working directory is known and the composer succeeds for every page
    of the list. *)
Definition startup_ok (os : OS) : Prop :=
  ∃ dir, os_getwd os = inr dir ∧
    ∀ page, page ∈ pages →
      is_Some (result_of (compose os dir page init_proc)).

(** The library calls of one run of the composer, up to [ParseFiles]. *)
Definition compose_events (dir page : string) : list event :=
  [ EvNew "layout.tmpl";
    EvFuncs (template_New "layout.tmpl") funcMap;
    EvParseFiles (template_Funcs (template_New "layout.tmpl") funcMap)
      (fragment_files dir page) ].
End Startup.

(** Two more environments for the small engine. *)
Module Scenarios.
Import Demo.

(** Both pages are fine, and the port is taken. *)
Definition os_port_taken : OS := {|
  os_getwd := inr "/srv";
  os_files := os_files os_good;
  os_listen := Some "listen tcp :8080: bind: address already in use";
|}.

(** [pages/home.tmpl] calls a helper that is not registered. *)
Definition os_bad_home : OS := {|
  os_getwd := inr "/srv";
  os_files :=
    <["/srv/templates/pages/home.tmpl" := [Call "upper" [AString "x"]]]>
    (<["/srv/templates/pages/about.tmpl" := [Text "about"]]> shared_files);
  os_listen := None;
|}.
End Scenarios.

(** * Properties of [dict] *)

Section DictFacts.
Implicit Types (values rest : list any) (d m : gmap string any).

(** Lists taken two elements at a time. *)
Lemma pairs_ind (P : list any → Prop) :
  P [] → (∀ k, P [k]) → (∀ k v rest, P rest → P (k :: v :: rest)) →
  ∀ rest, P rest.
Proof.
  intros Hnil Hone Hstep.
  assert (∀ (n : nat) rest, (length rest ≤ n)%nat → P rest) as Hall.
  { induction n as [|n IH]; intros [|k [|v rest]] Hlen; simpl in Hlen;
      auto; try lia.
    apply Hstep, IH. lia. }
  intros rest. by apply (Hall (length rest)).
Qed.

Lemma dict_loop_bind_pairs values i d :
  dict_loop values i d = bind_pairs (drop i values) d.
Proof.
  funelim (dict_loop values i d);
    repeat match goal with
      | Hk : values !! i = Some ?k |- _ =>
          rewrite (drop_S _ _ _ Hk); clear Hk; simpl
      | Hs : asString _ = _ |- _ => rewrite Hs; clear Hs
      end.
  - rewrite drop_ge by lia. done.
  - match goal with Hn : _ !! _ = None |- _ => apply lookup_ge_None in Hn end.
    lia.
  - done.
  - match goal with Hv : _ !! (i + 1) = Some _ |- _ =>
      replace (i + 1) with (S i) in Hv by lia; rewrite (drop_S _ _ _ Hv) end.
    replace (S (S i)) with (i + 2) by lia. done.
  - match goal with Hn : _ !! _ = None |- _ => apply lookup_ge_None in Hn end.
    rewrite drop_ge by lia. done.
Qed.

Lemma asString_Some v s : asString v = Some s ↔ v = AString s.
Proof. destruct v; simpl; split; congruence. Qed.

Lemma even_SS_inv (i : nat) :
  Nat.Even i → i = 0 ∨ ∃ j, i = S (S j) ∧ Nat.Even j.
Proof.
  destruct i as [|[|j]]; intros Hev; [by left | | right].
  - destruct Hev as [x Hx]. lia.
  - exists j. split; [done|]. by apply Nat.Even_succ_succ.
Qed.

Lemma pair_at_shift k0 v0 rest i k v :
  pair_at rest i k v → pair_at (k0 :: v0 :: rest) (S (S i)) k v.
Proof.
  intros (Hev & Hk & Hv). split; [by apply Nat.Even_succ_succ|]. done.
Qed.

Lemma last_key_at_shift k0 v0 rest i k :
  last_key_at rest i k → last_key_at (k0 :: v0 :: rest) (S (S i)) k.
Proof.
  intros Hlast j Hlt Hev.
  destruct (even_SS_inv j Hev) as [-> | (j' & -> & Hev')]; [lia|].
  simpl. apply Hlast; [lia | done].
Qed.

(** What the loop leaves in the map for a key [k]: the binding it started
    with when [k] is at no key position, and otherwise the value that
    follows the last key position holding [k]. *)
Lemma bind_pairs_lookup rest : ∀ d m k,
  bind_pairs rest d = Ok m →
  (m !! k = d !! k ∧ ∀ i, Nat.Even i → rest !! i ≠ Some (AString k)) ∨
  (∃ i v, pair_at rest i k v ∧ last_key_at rest i k ∧ m !! k = Some v).
Proof.
  induction rest as [|k0|k0 v0 rest IH] using pairs_ind; intros d m k Hok.
  - left. simpl in Hok. by injection Hok as <-.
  - simpl in Hok. by destruct (asString k0).
  - simpl in Hok. destruct (asString k0) as [key|] eqn:Hkey; [|done].
    apply asString_Some in Hkey as ->.
    destruct (IH _ _ k Hok) as [[Hm Hno] | (i & v & Hp & Hlast & Hm)].
    + destruct (decide (key = k)) as [->|Hne].
      * right. exists 0, v0. rewrite lookup_insert_eq in Hm.
        split; [by split; [exists 0|]|]. split; [|done].
        intros j Hlt Hev.
        destruct (even_SS_inv j Hev) as [-> | (j' & -> & Hev')]; [lia|].
        simpl. by apply Hno.
      * left. rewrite lookup_insert_ne in Hm by done. split; [done|].
        intros i Hev.
        destruct (even_SS_inv i Hev) as [-> | (j' & -> & Hev')]; simpl.
        -- congruence.
        -- by apply Hno.
    + right. exists (S (S i)), v.
      eauto using pair_at_shift, last_key_at_shift.
Qed.

Lemma bad_key_shift k0 v0 rest :
  bad_key (k0 :: v0 :: rest) ↔ asString k0 = None ∨ bad_key rest.
Proof.
  split.
  - intros (i & v & Hev & Hv & Hs).
    destruct (even_SS_inv i Hev) as [-> | (j & -> & Hev')].
    + left. simpl in Hv. congruence.
    + right. by exists j, v.
  - intros [Hs | (i & v & Hev & Hv & Hs)].
    + exists 0, k0. split; [by exists 0|]. done.
    + exists (S (S i)), v. split; [by apply Nat.Even_succ_succ|]. done.
Qed.

(** The loop reports an error exactly when it meets a key that is not a
    string. *)
Lemma bind_pairs_Err rest : ∀ d,
  (∃ msg, bind_pairs rest d = Err msg) ↔ bad_key rest.
Proof.
  induction rest as [|k0|k0 v0 rest IH] using pairs_ind; intros d.
  - split; [by intros [? ?]|]. intros (i & v & _ & Hv & _). done.
  - simpl. split.
    + intros [msg Hmsg]. exists 0, k0. split; [by exists 0|].
      by destruct (asString k0).
    + intros (i & v & Hev & Hv & Hs).
      destruct (even_SS_inv i Hev) as [-> | (j & -> & _)]; [|done].
      simpl in Hv. injection Hv as ->. rewrite Hs. eauto.
  - rewrite bad_key_shift. simpl. destruct (asString k0) as [key|].
    + rewrite IH. split; [by right|]. by intros [?|?].
    + split; [by left|]. eauto.
Qed.

(** The loop indexes out of range only on a sequence of odd length. *)
Lemma bind_pairs_Panic rest : ∀ d,
  bind_pairs rest d = Panic → Nat.Odd (length rest).
Proof.
  induction rest as [|k0|k0 v0 rest IH] using pairs_ind; intros d; simpl.
  - done.
  - intros _. by exists 0.
  - destruct (asString k0); [|done].
    intros Hp. apply Nat.Odd_succ_succ. by eapply IH.
Qed.

Lemma odd_length_mod values :
  length values `mod` 2 ≠ 0 ↔ Nat.Odd (length values).
Proof.
  pose proof (Nat.div_mod_eq (length values) 2) as Hdiv.
  pose proof (Nat.mod_upper_bound (length values) 2) as Hlt.
  split.
  - intros Hne. exists (length values `div` 2). lia.
  - intros [x Hx]. lia.
Qed.

Lemma dict_even values :
  ¬ Nat.Odd (length values) → dict values = bind_pairs values ∅.
Proof.
  intros Hodd. unfold dict.
  destruct (decide _) as [Hmod|_]; [by apply odd_length_mod in Hmod|].
  by rewrite dict_loop_bind_pairs, drop_0.
Qed.

Lemma dict_odd values :
  Nat.Odd (length values) → dict values = Err "invalid dict call".
Proof.
  intros Hodd. unfold dict.
  destruct (decide _) as [_|Hmod]; [done|].
  destruct Hmod. by apply odd_length_mod.
Qed.

Lemma odd_or_even (n : nat) : Nat.Odd n ∨ ¬ Nat.Odd n.
Proof.
  destruct (Nat.Even_or_Odd n) as [Hev|Hodd]; [right | by left].
  intros Hodd. by apply (Nat.Even_Odd_False n).
Qed.

Lemma dict_Ok_even values m : dict values = Ok m → ¬ Nat.Odd (length values).
Proof. intros Hok Hodd. by rewrite dict_odd in Hok. Qed.

Lemma dict_not_Panic values : dict values ≠ Panic.
Proof.
  destruct (odd_or_even (length values)) as [Hodd|Hev].
  - by rewrite dict_odd.
  - rewrite dict_even by done. intros Hp.
    by apply bind_pairs_Panic in Hp.
Qed.

Lemma dict_Err_iff values :
  (∃ msg, dict values = Err msg) ↔ Nat.Odd (length values) ∨ bad_key values.
Proof.
  destruct (odd_or_even (length values)) as [Hodd|Hev].
  - rewrite dict_odd by done. split; [by left | eauto].
  - rewrite dict_even, bind_pairs_Err by done. split; [by right|].
    by intros [?|?].
Qed.

Lemma dict_lookup values m k :
  dict values = Ok m →
  (m !! k = None ∧ ∀ i, Nat.Even i → values !! i ≠ Some (AString k)) ∨
  (∃ i v, pair_at values i k v ∧ last_key_at values i k ∧ m !! k = Some v).
Proof.
  intros Hok. rewrite dict_even in Hok by by eapply dict_Ok_even.
  destruct (bind_pairs_lookup _ _ _ k Hok) as [[Hm Hno]|Hlast]; [left|by right].
  by rewrite lookup_empty in Hm.
Qed.

Lemma dict_last_wins values m i k v :
  dict values = Ok m → pair_at values i k v → last_key_at values i k →
  m !! k = Some v.
Proof.
  intros Hok (Hev & Hk & Hv) Hlast.
  destruct (dict_lookup _ _ k Hok)
    as [[_ Hno] | (i' & v' & (Hev' & Hk' & Hv') & Hlast' & Hm)].
  - by destruct (Hno i Hev).
  - destruct (Nat.lt_trichotomy i i') as [Hlt | [<- | Hlt]].
    + by destruct (Hlast i' Hlt Hev').
    + congruence.
    + by destruct (Hlast' i Hlt Hev).
Qed.

Lemma all_keys_strings_not_bad values :
  all_keys_strings values ↔ ¬ bad_key values.
Proof.
  split.
  - intros Hall (i & v & Hev & Hv & Hs).
    destruct (Hall i v Hev Hv) as [s ->]. done.
  - intros Hbad i v Hev Hv. destruct (asString v) as [s|] eqn:Hs.
    + exists s. by apply asString_Some.
    + destruct Hbad. by exists i, v.
Qed.

Lemma dict_Ok values :
  ¬ Nat.Odd (length values) → ¬ bad_key values → ∃ m, dict values = Ok m.
Proof.
  intros Hev Hbad. destruct (dict values) as [m|msg|] eqn:Hd.
  - by exists m.
  - destruct (proj1 (dict_Err_iff values)) as [?|?]; [by exists msg|done..].
  - by destruct (dict_not_Panic values).
Qed.
End DictFacts.

(** C2.  [dict] fails, with an error, exactly when the number of arguments
    is odd or some argument at a key position (an even index) is not a
    string.  Otherwise it returns a map whose keys are the key-position
    arguments, each bound to an argument that follows an occurrence of it,
    which is the one that follows it when the key occurs once.  In
    particular [dict("a", 1, "b", 2)] is [{a:1, b:2}], and
    [dict("a", 1, "b")] and [dict(1, "x")] fail. *)
Theorem dict_fails_iff_odd_or_nonstring_key (values : list any) :
  ((∃ msg, dict values = Err msg) ↔
     Nat.Odd (length values) ∨ bad_key values) ∧
  (¬ (Nat.Odd (length values) ∨ bad_key values) →
     ∃ m, dict values = Ok m ∧
       (∀ k v, m !! k = Some v → ∃ i, pair_at values i k v) ∧
       (∀ i k v, pair_at values i k v → is_Some (m !! k)) ∧
       (∀ i k v, pair_at values i k v →
          (∀ j, j ≠ i → Nat.Even j → values !! j ≠ Some (AString k)) →
          m !! k = Some v)) ∧
  dict [AString "a"; AInt 1; AString "b"; AInt 2]
    = Ok {[ "a" := AInt 1; "b" := AInt 2 ]} ∧
  dict [AString "a"; AInt 1; AString "b"] = Err "invalid dict call" ∧
  dict [AInt 1; AString "x"] = Err "dict keys must be strings".
Proof.
  split; [apply dict_Err_iff|]. split; [|by vm_compute].
  intros Hgood.
  destruct (dict_Ok values) as [m Hm]; [tauto..|].
  exists m. split; [done|]. repeat split.
  - intros k v Hkv.
    destruct (dict_lookup _ _ k Hm) as [[Hnone _] | (i & v' & Hp & _ & Hv')].
    + congruence.
    + exists i. congruence.
  - intros i k v (Hev & Hk & _).
    destruct (dict_lookup _ _ k Hm) as [[_ Hno] | (_ & v' & _ & _ & Hv')].
    + by destruct (Hno i Hev).
    + by exists v'.
  - intros i k v Hp Honce. eapply dict_last_wins; [done..|].
    intros j Hlt Hev. apply Honce; [lia | done].
Qed.

Lemma dict_fails_iff_odd_or_nonstring_key_witness :
  let values := [AString "a"; AInt 1; AString "b"; AInt 2] in
  ¬ (Nat.Odd (length values) ∨ bad_key values) ∧
  ∃ m, dict values = Ok m ∧
    (∀ k v, m !! k = Some v → ∃ i, pair_at values i k v) ∧
    (∀ i k v, pair_at values i k v → is_Some (m !! k)) ∧
    (∀ i k v, pair_at values i k v →
       (∀ j, j ≠ i → Nat.Even j → values !! j ≠ Some (AString k)) →
       m !! k = Some v).
Proof.
  intros values.
  assert (¬ (Nat.Odd (length values) ∨ bad_key values)) as Hgood.
  { intros [[x Hx] | (i & v & Hi & Hv & Hs)]; [simpl in Hx; lia|].
    unfold values in Hv.
    destruct i as [|[|[|[|i]]]]; simpl in Hv; try done;
      first [ by (destruct Hi as [x Hx]; lia) | by injection Hv as <- ]. }
  split; [exact Hgood|].
  exact (proj1 (proj2 (dict_fails_iff_odd_or_nonstring_key values)) Hgood).
Defined.

(** C10.  On a sequence of even length whose key positions all hold
    strings, [dict] succeeds, repeated keys or not; a key is bound to the
    value that follows its last occurrence; and the result for the empty
    sequence is the empty map. *)
Theorem dict_repeated_key_last_wins (values : list any) :
  Nat.Even (length values) → all_keys_strings values →
  ∃ m, dict values = Ok m ∧
    (∀ i k v, pair_at values i k v → last_key_at values i k →
       m !! k = Some v) ∧
    (values = [] → m = ∅).
Proof.
  intros Hev Hkeys.
  destruct (dict_Ok values) as [m Hm].
  - intros Hodd. by apply (Nat.Even_Odd_False (length values)).
  - by apply all_keys_strings_not_bad.
  - exists m. split; [done|]. split.
    + intros i k v. by apply dict_last_wins.
    + intros ->. vm_compute in Hm. by injection Hm as <-.
Qed.

Lemma dict_repeated_key_last_wins_witness :
  let values := [AString "a"; AInt 1; AString "b"; AInt 2; AString "a"; AInt 3] in
  Nat.Even (length values) ∧ all_keys_strings values ∧
  ∃ m, dict values = Ok m ∧
    (∀ i k v, pair_at values i k v → last_key_at values i k →
       m !! k = Some v) ∧
    (values = [] → m = ∅).
Proof.
  intros values.
  assert (Nat.Even (length values)) as Hev by (exists 3; reflexivity).
  assert (all_keys_strings values) as Hkeys.
  { intros i v Hi Hv. unfold values in Hv.
    destruct i as [|[|[|[|[|[|i]]]]]]; simpl in Hv; try done;
      first [ by (destruct Hi as [x Hx]; lia) | injection Hv as <-; eauto ]. }
  split; [exact Hev|]. split; [exact Hkeys|].
  exact (dict_repeated_key_last_wins values Hev Hkeys).
Defined.


(** * Properties of the process *)

Section ProcessFacts.
Context `{TemplateEngine} `{ServeMux}.
Local Open Scope list_scope.
Implicit Types (os : OS) (p q : Proc) (dir page : string) (r : Request).

Lemma add_log_app p evs evs' :
  add_log (add_log p evs) evs' = add_log p (evs ++ evs').
Proof. unfold add_log. simpl. by rewrite app_assoc. Qed.

(** The events of one run of the loop body, up to and including the call
    of [ParseFiles]. *)
Lemma compose_unfold os dir page p :
  let t0 := template_New "layout.tmpl" in
  let t1 := template_Funcs t0 funcMap in
  let evs := [EvNew "layout.tmpl"; EvFuncs t0 funcMap;
              EvParseFiles t1 (fragment_files dir page)] in
  compose os dir page p =
    match template_ParseFiles (os_files os) t1 (fragment_files dir page) with
    | inr goTpl => Running goTpl (add_log p evs)
    | inl err =>
        Exited 1
          (add_log p (evs ++ [EvFatal ("error parsing files: " ++ err)%string]))
    end.
Proof.
  intros t0 t1 evs.
  unfold compose, New, Funcs, ParseFiles, log_Fatal, bind, emit, ret, exit.
  fold t0. fold t1.
  destruct (template_ParseFiles _ _ _); by rewrite !add_log_app.
Qed.

Lemma compose_result os dir page p q :
  result_of (compose os dir page p) = result_of (compose os dir page q).
Proof.
  rewrite !compose_unfold. by destruct (template_ParseFiles _ _ _).
Qed.

Lemma compose_Exited os dir page p code p' :
  compose os dir page p = Exited code p' → code = 1%Z.
Proof.
  rewrite compose_unfold. destruct (template_ParseFiles _ _ _); congruence.
Qed.

(** The loop body touches nothing but the log, where it leaves events of
    the composer only. *)
Lemma compose_frame os dir page p :
  ∃ evs, state_of (compose os dir page p) = add_log p evs ∧
         Forall (λ e, composer_event e = true) evs.
Proof.
  rewrite compose_unfold.
  destruct (template_ParseFiles _ _ _); eexists; (split; [done|]);
    repeat constructor.
Qed.

Lemma compose_all_frame os dir ps : ∀ p,
  ∃ evs, log (state_of (compose_all os dir ps p)) = (log p ++ evs)%list ∧
         mux (state_of (compose_all os dir ps p)) = mux p ∧
         listening (state_of (compose_all os dir ps p)) = listening p ∧
         Forall (λ e, composer_event e = true) evs.
Proof.
  induction ps as [|page ps IH]; intros p; simpl.
  - exists []. by rewrite app_nil_r.
  - unfold bind, cache_put.
    destruct (compose_frame os dir page p) as (evs & Hst & Hevs).
    destruct (compose os dir page p) as [goTpl p1|code p1]; simpl in Hst;
      subst p1.
    + destruct (IH {| cache := <[page:=goTpl]> (cache (add_log p evs));
                      mux := mux (add_log p evs);
                      listening := listening (add_log p evs);
                      log := log (add_log p evs) |})
        as (evs' & Hlog & Hmux & Hlis & Hevs').
      exists (evs ++ evs'). rewrite Hlog, Hmux, Hlis. simpl.
      rewrite app_assoc. by rewrite Forall_app.
    + by exists evs.
Qed.

Lemma compose_all_other os dir ps : ∀ p p',
  compose_all os dir ps p = Running tt p' →
  ∀ page, page ∉ ps → cache p' !! page = cache p !! page.
Proof.
  induction ps as [|page0 ps IH]; intros p p' Hrun page Hin; simpl in Hrun.
  - unfold ret in Hrun. by injection Hrun as <-.
  - unfold bind, cache_put in Hrun.
    destruct (compose_frame os dir page0 p) as (evs & Hst & _).
    destruct (compose os dir page0 p) as [goTpl p1|code p1]; [|done].
    simpl in Hst. subst p1.
    apply not_elem_of_cons in Hin as [Hne Hin].
    rewrite (IH _ _ Hrun page Hin). simpl. by apply lookup_insert_ne.
Qed.

(** When the loop runs to its end, every page of the list is in the map,
    bound to the unit the loop body returns for it. *)
Lemma compose_all_Running os dir ps : ∀ p p',
  compose_all os dir ps p = Running tt p' →
  ∀ page, page ∈ ps →
    ∃ u, cache p' !! page = Some u ∧
         ∀ q, result_of (compose os dir page q) = Some u.
Proof.
  induction ps as [|page0 ps IH]; intros p p' Hrun page Hin.
  - by apply elem_of_nil in Hin.
  - simpl in Hrun. unfold bind, cache_put in Hrun.
    destruct (compose os dir page0 p) as [goTpl p1|code p1] eqn:Hc; [|done].
    destruct (decide (page ∈ ps)) as [Hps|Hps]; [by eapply IH|].
    apply elem_of_cons in Hin as [->|Hin]; [|done].
    exists goTpl. split.
    + rewrite (compose_all_other os dir ps _ _ Hrun page0 Hps). simpl.
      apply lookup_insert_eq.
    + intros q. by rewrite (compose_result os dir page0 q p), Hc.
Qed.

(** When the loop body fails for some page of the list, the loop exits. *)
Lemma compose_all_Exited os dir ps : ∀ p page,
  page ∈ ps → result_of (compose os dir page p) = None →
  ∃ p', compose_all os dir ps p = Exited 1 p'.
Proof.
  induction ps as [|page0 ps IH]; intros p page Hin Hfail.
  - by apply elem_of_nil in Hin.
  - simpl. unfold bind, cache_put.
    destruct (compose os dir page0 p) as [goTpl p1|code p1] eqn:Hc.
    + apply elem_of_cons in Hin as [->|Hin]; [by rewrite Hc in Hfail|].
      eapply IH; [done|]. by rewrite (compose_result os dir page _ p).
    + apply compose_Exited in Hc as Hcode. subst code. by exists p1.
Qed.

(** [main], from the first [Println] on, in terms of the loop. *)
Lemma main_unfold os dir :
  os_getwd os = inr dir →
  main os init_proc =
    match compose_all os dir pages
            {| cache := ∅; mux := []; listening := false;
               log := [EvPrintln ("Working directory:  " ++ dir)%string] |} with
    | Exited code p1 => Exited code p1
    | Running _ p1 =>
        let log1 := log p1 ++ [EvHandleFunc "/"; EvHandleFunc "/about";
                               EvPrintln "Serving..."; EvListenAndServe ":8080"] in
        let mux1 := mux p1 ++ [("/", HRoot); ("/about", HAbout)] in
        match os_listen os with
        | Some _ =>
            Exited 0 {| cache := cache p1; mux := mux1;
                        listening := listening p1; log := log1 |}
        | None =>
            Running tt {| cache := cache p1; mux := mux1;
                          listening := true; log := log1 |}
        end
    end.
Proof.
  intros Hwd. unfold main. rewrite Hwd.
  generalize (compose_all os dir pages). intros loop.
  unfold Println, cache_make, HandleFunc, ListenAndServe, bind, emit, ret, exit,
    add_log.
  simpl.
  destruct (loop _) as [[] p1|code p1]; [|done].
  destruct (os_listen os); simpl; by rewrite <-!app_assoc.
Qed.

Lemma main_no_wd os err :
  os_getwd os = inl err →
  main os init_proc =
    Exited 1 {| cache := ∅; mux := []; listening := false;
                log := [EvPrintln ("Can't get working dir.  " ++ err)%string;
                        EvFatal err] |}.
Proof. intros Hwd. unfold main. by rewrite Hwd. Qed.

(** What is known of the state in which [main] starts to accept requests. *)
Lemma main_Running os p :
  main os init_proc = Running tt p →
  ∃ dir, os_getwd os = inr dir ∧
    listening p = true ∧
    mux p = [("/", HRoot); ("/about", HAbout)] ∧
    (∀ page, page ∈ pages →
       ∃ u, cache p !! page = Some u ∧
            ∀ q, result_of (compose os dir page q) = Some u) ∧
    Forall (λ e, match e with EvExecute _ _ _ => False | _ => True end) (log p).
Proof.
  intros Hmain. destruct (os_getwd os) as [err|dir] eqn:Hwd.
  { by rewrite (main_no_wd _ _ Hwd) in Hmain. }
  exists dir. split; [done|]. rewrite (main_unfold _ _ Hwd) in Hmain.
  set (p0 := {| cache := ∅; mux := []; listening := false; log := _ |}) in Hmain.
  destruct (compose_all_frame os dir pages p0) as (evs & Hlog & Hmux & _ & Hevs).
  pose proof (compose_all_Running os dir pages p0) as Hcache.
  destruct (compose_all os dir pages p0) as [[] p1|code p1]; [|done].
  simpl in Hlog, Hmux. specialize (Hcache p1 eq_refl).
  destruct (os_listen os); [done|]. injection Hmain as <-. simpl.
  rewrite Hmux, Hlog. repeat split; try done.
  rewrite Forall_app, Forall_cons.
  split; [split; [done|] | by repeat constructor].
  eapply Forall_impl; [exact Hevs|]. by intros [].
Qed.

(** *** Serving *)

Lemma render_unfold page data q :
  render page data q =
    match cache q !! page with
    | None => Running Aborted q
    | Some t =>
        let r := template_Execute t data in
        match r.2 with
        | None => Running (Body r.1) (add_log q [EvExecute t data r.1])
        | Some err =>
            Exited 1 (add_log q [EvExecute t data r.1;
                                 EvFatal ("can't execute template. " ++ err)%string])
        end
    end.
Proof.
  unfold render, get_cache, Execute, log_Fatal, bind, emit, ret, exit.
  destruct (cache q !! page) as [t|]; [|done]. simpl.
  destruct (template_Execute t data).2; by rewrite ?add_log_app.
Qed.

(** A handler leaves the cache and the routes as they are. *)
Lemma render_frame page data q :
  cache (state_of (render page data q)) = cache q ∧
  mux (state_of (render page data q)) = mux q ∧
  listening (state_of (render page data q)) = listening q.
Proof.
  rewrite render_unfold. destruct (cache q !! page) as [t|]; [|done]. simpl.
  by destruct (template_Execute t data).2.
Qed.

Lemma serve_frame r q :
  cache (state_of (serve r q)) = cache q ∧
  mux (state_of (serve r q)) = mux q ∧
  listening (state_of (serve r q)) = listening q.
Proof.
  unfold serve, get_mux, bind, ret.
  destruct (mux_match _ _) as [pattern|]; [|done].
  destruct (find_handler _ _) as [[]|]; [apply render_frame..|done].
Qed.

Lemma serve_all_frame rs : ∀ q,
  cache (state_of (serve_all rs q)) = cache q ∧
  mux (state_of (serve_all rs q)) = mux q ∧
  listening (state_of (serve_all rs q)) = listening q.
Proof.
  induction rs as [|r rs IH]; intros q; simpl; [done|].
  unfold bind, ret. destruct (serve_frame r q) as (Hc & Hm & Hl).
  destruct (serve r q) as [x q1|code q1]; [|done]. simpl in Hc, Hm, Hl.
  destruct (IH q1) as (Hc' & Hm' & Hl').
  destruct (serve_all rs q1) as [xs q2|code q2]; simpl in *;
    by rewrite Hc', Hm', Hl'.
Qed.

(** Every state in which requests are served has the cache and the routes
    that [main] left. *)
Lemma serving_inv os q :
  serving os q →
  ∃ p, main os init_proc = Running tt p ∧
       cache q = cache p ∧ mux q = mux p ∧ listening q = listening p.
Proof.
  induction 1 as [p Hmain | q r x q' _ (p & Hmain & Hc & Hm & Hl) Hserve].
  - by exists p.
  - exists p. split; [done|].
    destruct (serve_frame r q) as (Hc' & Hm' & Hl'). rewrite Hserve in *.
    simpl in *. by rewrite Hc', Hm', Hl'.
Qed.

Lemma serving_state os q :
  serving os q →
  ∃ dir, os_getwd os = inr dir ∧
    listening q = true ∧
    mux q = [("/", HRoot); ("/about", HAbout)] ∧
    ∀ page, page ∈ pages →
      ∃ u, cache q !! page = Some u ∧
           ∀ q', result_of (compose os dir page q') = Some u.
Proof.
  intros (p & Hmain & -> & -> & ->)%serving_inv.
  destruct (main_Running _ _ Hmain) as (dir & Hwd & Hl & Hm & Hc & _).
  by exists dir.
Qed.

(** A request dispatched to one of the two patterns runs the handler
    registered for it. *)
Lemma serve_route os q r pattern page data :
  serving os q → mux_match (mux q).*1 r = Some pattern →
  (pattern, page, data) ∈ routes →
  serve r q = render page data q.
Proof.
  intros (dir & _ & _ & Hmux & _)%serving_state Hmatch Hroute.
  unfold serve, get_mux, bind. rewrite Hmatch, Hmux.
  unfold routes in Hroute.
  apply elem_of_cons in Hroute as [Heq|Heq%list_elem_of_singleton];
    injection Heq as -> -> ->; done.
Qed.
End ProcessFacts.


(** * The claims about the process *)

Section Claims.
Context `{TemplateEngine} `{ServeMux}.
Implicit Types (os : OS) (p q : Proc) (dir page : string) (r : Request).
Local Open Scope list_scope.

(** C3.  For every page, the composer first creates a unit named
    ["layout.tmpl"], then attaches the function map to that unit, and then
    calls [ParseFiles] on the result with the layout, sidebar, page and
    headline files, in this order.  Nothing it does afterwards creates a
    unit, attaches functions or parses: the function map is never attached
    after parsing. *)
Theorem compose_attaches_funcs_before_parsing os dir page p :
  let t0 := template_New "layout.tmpl" in
  let t1 := template_Funcs t0 funcMap in
  ∃ rest,
    log (state_of (compose os dir page p)) =
      log p ++
      [ EvNew "layout.tmpl";
        EvFuncs t0 funcMap;
        EvParseFiles t1
          [ (dir ++ "/templates/layout.tmpl")%string;
            (dir ++ "/templates/sidebar.tmpl")%string;
            (dir ++ "/templates/pages/" ++ page ++ ".tmpl")%string;
            (dir ++ "/templates/headline.tmpl")%string ] ] ++ rest ∧
    Forall (λ e, match e with
                 | EvNew _ | EvFuncs _ _ | EvParseFiles _ _ => False
                 | _ => True
                 end) rest.
Proof.
  intros t0 t1. rewrite compose_unfold. fold t0 t1.
  destruct (template_ParseFiles _ _ _) as [err|goTpl]; simpl.
  - eexists [_]. split; [done|]. by repeat constructor.
  - exists []. split; [done|]. constructor.
Qed.

(** C4.  In the state in which [main] starts to accept requests, no
    request has been served yet, every registered handler looks up a page
    for which the cache holds the unit the composer returned for it (these
    are ["home"] for ["/"] and ["about"] for ["/about"]), and in every state
    the server reaches later, and by every request served from such a state,
    the cache is the one [main] built. *)
Theorem cache_complete_before_first_request os p :
  main os init_proc = Running tt p →
  listening p = true ∧
  Forall (λ e, match e with EvExecute _ _ _ => False | _ => True end) (log p) ∧
  mux p = [("/", HRoot); ("/about", HAbout)] ∧
  (∃ dir, os_getwd os = inr dir ∧
     ∀ pattern h, (pattern, h) ∈ mux p →
       ∃ page data u,
         (pattern, page, data) ∈ routes ∧
         (∀ r, run_handler h r = render page data) ∧
         cache p !! page = Some u ∧
         ∀ q, result_of (compose os dir page q) = Some u) ∧
  (∀ q, serving os q →
     cache q = cache p ∧ ∀ r, cache (state_of (serve r q)) = cache p).
Proof.
  intros Hmain.
  destruct (main_Running _ _ Hmain) as (dir & Hwd & Hl & Hm & Hc & Hlog).
  split; [done|]. split; [done|]. split; [done|]. split.
  - exists dir. split; [done|]. intros pattern h. rewrite Hm.
    intros [Heq|Heq%list_elem_of_singleton]%elem_of_cons;
      injection Heq as -> ->.
    + destruct (Hc "home") as (u & Hu & Hcomp); [set_solver|].
      exists "home", home_data, u. repeat split; [set_solver|done..].
    + destruct (Hc "about") as (u & Hu & Hcomp); [set_solver|].
      exists "about", ANil, u. repeat split; [set_solver|done..].
  - intros q (p' & Hmain' & Hcq & _)%serving_inv.
    rewrite Hmain in Hmain'. injection Hmain' as <-.
    split; [done|]. intros r. destruct (serve_frame r q) as (-> & _). done.
Qed.

(** C5.  In every state in which requests are served the cache holds the
    ["home"] and the ["about"] unit.  A request dispatched to ["/"] executes
    the ["home"] unit with [{"name": "Jan"}], and a request dispatched to
    ["/about"] executes the ["about"] unit with [nil]; nothing else is
    executed for the request, and when the execution reports no error the
    bytes it wrote are the response. *)
Theorem handlers_render_cached_units os q r :
  serving os q →
  ∃ home about,
    cache q !! "home" = Some home ∧ cache q !! "about" = Some about ∧
    ∀ pattern t data,
      mux_match (mux q).*1 r = Some pattern →
      (pattern, t, data) ∈ [("/", home, home_data); ("/about", about, ANil)] →
      let out := template_Execute t data in
      (∃ rest, log (state_of (serve r q)) = log q ++ EvExecute t data out.1 :: rest ∧
               Forall (λ e, ∃ msg, e = EvFatal msg) rest) ∧
      (out.2 = None → result_of (serve r q) = Some (Body out.1)).
Proof.
  intros Hq.
  destruct (serving_state _ _ Hq) as (dir & _ & _ & _ & Hc).
  destruct (Hc "home") as (home & Hhome & _); [set_solver|].
  destruct (Hc "about") as (about & Habout & _); [set_solver|].
  exists home, about. split; [done|]. split; [done|].
  intros pattern t data Hmatch Hin out.
  assert (∃ page, (pattern, page, data) ∈ routes ∧ cache q !! page = Some t)
    as (page & Hroute & Ht).
  { apply elem_of_cons in Hin as [Heq|Heq%list_elem_of_singleton];
      injection Heq as -> -> ->.
    - exists "home". split; [set_solver|done].
    - exists "about". split; [set_solver|done]. }
  rewrite (serve_route _ _ _ _ _ _ Hq Hmatch Hroute), render_unfold, Ht.
  fold out. simpl. destruct out.2 as [err|]; simpl.
  - split; [|done]. eexists [_]. split; [done|].
    constructor; [by eexists|constructor].
  - split; [|done]. exists []. split; [done|constructor].
Qed.

(** C6.  When the working directory is known and the composer fails for a
    page of the list, [main] exits with status 1 in a state in which no
    handler is registered and [ListenAndServe] was never called; no state in
    which requests are served is ever reached. *)
Theorem compose_failure_exits_before_serving os dir page q :
  os_getwd os = inr dir → page ∈ pages →
  result_of (compose os dir page q) = None →
  ∃ p, main os init_proc = Exited 1 p ∧
    listening p = false ∧ mux p = [] ∧
    Forall (λ e, match e with
                 | EvHandleFunc _ | EvListenAndServe _ | EvExecute _ _ _ => False
                 | _ => True
                 end) (log p) ∧
    ∀ q', ¬ serving os q'.
Proof.
  intros Hwd Hpage Hfail. pose proof (main_unfold _ _ Hwd) as Hmain.
  set (p0 := {| cache := ∅; mux := []; listening := false; log := _ |}) in Hmain.
  destruct (compose_all_Exited os dir pages p0 page Hpage) as [p1 Hexit].
  { by rewrite (compose_result os dir page p0 q). }
  destruct (compose_all_frame os dir pages p0) as (evs & Hlog & Hmux & Hl & Hevs).
  rewrite Hexit in *. simpl in Hlog, Hmux, Hl.
  exists p1. split; [done|]. split; [done|]. split; [done|]. split.
  - rewrite Hlog. constructor; [done|].
    eapply Forall_impl; [exact Hevs|]. by intros [].
  - intros q' (p' & Hmain' & _)%serving_inv. congruence.
Qed.

(** C7.  When a request is dispatched to either route and executing the
    cached unit of that route reports an error, the process exits with
    status 1 after logging the error: the request gets no response from a
    handler that returned, and no later request is served. *)
Theorem render_failure_exits os q r pattern page data t err :
  serving os q → mux_match (mux q).*1 r = Some pattern →
  (pattern, page, data) ∈ routes →
  cache q !! page = Some t → (template_Execute t data).2 = Some err →
  ∃ q', serve r q = Exited 1 q' ∧
    log q' = log q ++ [EvExecute t data (template_Execute t data).1;
                       EvFatal ("can't execute template. " ++ err)%string] ∧
    ∀ rs, serve_all (r :: rs) q = Exited 1 q'.
Proof.
  intros Hq Hmatch Hroute Ht Herr.
  pose proof (serve_route _ _ _ _ _ _ Hq Hmatch Hroute) as Hserve.
  rewrite render_unfold, Ht in Hserve. simpl in Hserve. rewrite Herr in Hserve.
  eexists. split; [exact Hserve|]. split; [done|].
  intros rs. simpl. unfold bind. by rewrite Hserve.
Qed.
End Claims.

(** * Further properties of the process *)

Section ProcessMore.
Context `{TemplateEngine} `{ServeMux}.
Implicit Types (os : OS) (p q : Proc) (dir page : string) (r : Request).
Local Open Scope list_scope.

Lemma compose_Running os dir page p :
  is_Some (result_of (compose os dir page init_proc)) →
  ∃ u, compose os dir page p = Running u (add_log p (compose_events dir page)).
Proof.
  rewrite !compose_unfold. unfold compose_events.
  destruct (template_ParseFiles _ _ _) as [err|u]; [by intros [? ?]|].
  by exists u.
Qed.

Lemma compose_all_app os dir ps1 ps2 p :
  compose_all os dir (ps1 ++ ps2) p =
    match compose_all os dir ps1 p with
    | Running _ p1 => compose_all os dir ps2 p1
    | Exited code p1 => Exited code p1
    end.
Proof.
  revert p. induction ps1 as [|page ps1 IH]; intros p; simpl; [done|].
  unfold bind. destruct (compose os dir page p) as [u p1|code p1]; [|done].
  unfold cache_put. apply IH.
Qed.

(** The loop over pages that all compose: it runs to its end, and its
    events are those of the composer, page after page. *)
Lemma compose_all_ok os dir ps : ∀ p,
  (∀ page, page ∈ ps → is_Some (result_of (compose os dir page init_proc))) →
  ∃ p', compose_all os dir ps p = Running tt p' ∧
        log p' = log p ++ (ps ≫= compose_events dir) ∧
        mux p' = mux p ∧ listening p' = listening p.
Proof.
  induction ps as [|page ps IH]; intros p Hall; simpl.
  - exists p. by rewrite app_nil_r.
  - destruct (compose_Running os dir page p) as [u Hu]; [apply Hall; by left|].
    unfold bind, cache_put. rewrite Hu.
    edestruct IH as (p' & -> & Hlog & Hmux & Hl).
    { intros page' Hin. apply Hall. by right. }
    exists p'. split; [done|]. rewrite Hlog, Hmux, Hl. simpl.
    by rewrite <-app_assoc.
Qed.

Lemma compose_all_dec os dir (ps : list string) :
  (∀ page, page ∈ ps → is_Some (result_of (compose os dir page init_proc))) ∨
  (∃ page, page ∈ ps ∧ result_of (compose os dir page init_proc) = None).
Proof.
  induction ps as [|page ps [IH|(page' & Hin & Hfail)]].
  - left. by intros page Hin%elem_of_nil.
  - destruct (result_of (compose os dir page init_proc)) as [u|] eqn:Hc.
    + left. intros page' [->|Hin]%elem_of_cons; [by rewrite Hc | by apply IH].
    + right. exists page. split; [by left | done].
  - right. exists page'. split; [by right | done].
Qed.

Lemma startup_ok_dec os dir :
  os_getwd os = inr dir →
  startup_ok os ∨
  ∃ page, page ∈ pages ∧ result_of (compose os dir page init_proc) = None.
Proof.
  intros Hwd. destruct (compose_all_dec os dir pages) as [Hall|Hfail].
  - left. by exists dir.
  - by right.
Qed.

(** The three ways [main] can end. *)
Lemma main_cases os :
  (startup_ok os ∧ os_listen os = None ∧
     ∃ p, main os init_proc = Running tt p) ∨
  (startup_ok os ∧ is_Some (os_listen os) ∧
     ∃ p, main os init_proc = Exited 0 p) ∨
  (¬ startup_ok os ∧ ∃ p, main os init_proc = Exited 1 p).
Proof.
  destruct (os_getwd os) as [err|dir] eqn:Hwd.
  { right. right. split; [|rewrite (main_no_wd _ _ Hwd); eauto].
    intros (dir & Hdir & _). congruence. }
  destruct (startup_ok_dec os dir Hwd) as [Hok | (page & Hin & Hfail)].
  - destruct Hok as (dir' & Hwd' & Hall).
    assert (dir' = dir) as -> by congruence.
    rewrite (main_unfold _ _ Hwd).
    edestruct (compose_all_ok os dir pages) as (p1 & -> & _); [exact Hall|].
    destruct (os_listen os) as [e|] eqn:Hl.
    + right. left. split; [by exists dir|]. split; eauto.
    + left. split; [by exists dir|]. split; eauto.
  - right. right. split.
    + intros (dir' & Hwd' & Hall).
      assert (dir' = dir) as -> by congruence.
      destruct (Hall page Hin) as [u Hu]. congruence.
    + rewrite (main_unfold _ _ Hwd).
      edestruct (compose_all_Exited os dir pages) as [p1 ->]; [exact Hin| |eauto].
      by rewrite (compose_result os dir page _ init_proc).
Qed.

(** The log and the routes of a run of [main] that got past the loop. *)
Lemma main_past_loop os dir :
  os_getwd os = inr dir →
  (∀ page, page ∈ pages → is_Some (result_of (compose os dir page init_proc))) →
  ∃ p1, mux p1 = [] ∧ listening p1 = false ∧
    log p1 = EvPrintln ("Working directory:  " ++ dir)%string
             :: compose_events dir "home" ++ compose_events dir "about" ∧
    (∀ page, page ∈ pages → is_Some (cache p1 !! page)) ∧
    (∀ page, page ∉ pages → cache p1 !! page = None) ∧
    main os init_proc =
      let log1 := log p1 ++ [EvHandleFunc "/"; EvHandleFunc "/about";
                             EvPrintln "Serving..."; EvListenAndServe ":8080"] in
      let mux1 := [("/", HRoot); ("/about", HAbout)] in
      match os_listen os with
      | Some _ =>
          Exited 0 {| cache := cache p1; mux := mux1;
                      listening := false; log := log1 |}
      | None =>
          Running tt {| cache := cache p1; mux := mux1;
                        listening := true; log := log1 |}
      end.
Proof.
  intros Hwd Hall. rewrite (main_unfold _ _ Hwd).
  set (p0 := {| cache := ∅; mux := []; listening := false; log := _ |}).
  destruct (compose_all_ok os dir pages p0 Hall) as (p1 & Hrun & Hlog & Hmux & Hl).
  rewrite Hrun. exists p1. simpl in Hlog, Hmux, Hl.
  split; [done|]. split; [done|]. split; [by rewrite Hlog|]. split; [|split].
  - intros page Hin.
    destruct (compose_all_Running _ _ _ _ _ Hrun page Hin) as (u & -> & _).
    by eexists.
  - intros page Hin. by rewrite (compose_all_other _ _ _ _ _ Hrun page Hin).
  - simpl. rewrite Hmux, Hl. done.
Qed.
End ProcessMore.

Section ProcessExtras.
Context `{TemplateEngine} `{ServeMux}.
Implicit Types (os : OS) (p q : Proc) (dir page : string) (r : Request).
Local Open Scope list_scope.

(** In two states with the same cache and the same routes, a request gets
    the same response. *)
Lemma serve_result_ext q1 q2 r :
  cache q1 = cache q2 → mux q1 = mux q2 →
  result_of (serve r q1) = result_of (serve r q2).
Proof.
  intros Hc Hm. unfold serve, get_mux, bind.
  rewrite Hm. destruct (mux_match _ r) as [pattern|]; [|done].
  destruct (find_handler _ _) as [[]|]; [| |done]; simpl;
    rewrite !render_unfold, Hc;
    (destruct (cache q2 !! _) as [t|]; [|done]); simpl;
    by destruct (template_Execute t _).2.
Qed.

Lemma serving_same_cache os q1 q2 :
  serving os q1 → serving os q2 → cache q1 = cache q2 ∧ mux q1 = mux q2.
Proof.
  intros (p1 & Hmain1 & -> & -> & _)%serving_inv
         (p2 & Hmain2 & -> & -> & _)%serving_inv.
  rewrite Hmain1 in Hmain2. by injection Hmain2 as ->.
Qed.

(** X6.  [main] ends in one of three ways, each with its cause: it serves
    requests exactly when the working directory is known, both pages
    compose and [ListenAndServe] does not fail; it exits with status 0
    exactly when all that holds except that [ListenAndServe] fails; it
    exits with status 1 exactly when the working directory is unknown or a
    page does not compose.  It exits with no other status. *)
Theorem main_outcome os :
  ((∃ p, main os init_proc = Running tt p) ↔
     startup_ok os ∧ os_listen os = None) ∧
  ((∃ p, main os init_proc = Exited 0 p) ↔
     startup_ok os ∧ is_Some (os_listen os)) ∧
  ((∃ p, main os init_proc = Exited 1 p) ↔ ¬ startup_ok os) ∧
  (∀ code p, main os init_proc = Exited code p → code = 0%Z ∨ code = 1%Z).
Proof.
  destruct (main_cases os)
    as [(Hok & Hl & p0 & Hmain) | [(Hok & Hl & p0 & Hmain) | (Hok & p0 & Hmain)]];
    rewrite Hmain.
  - split; [|split; [|split]].
    + split; eauto.
    + split; [by intros [? ?]|]. rewrite Hl. by intros [_ [? ?]].
    + split; [by intros [? ?] | done].
    + done.
  - split; [|split; [|split]].
    + split; [by intros [? ?]|]. intros [_ Hnone]. rewrite Hnone in Hl.
      by destruct Hl.
    + split; eauto.
    + split; [by intros [? ?] | done].
    + intros code p [= <- _]. by left.
  - split; [|split; [|split]].
    + split; [by intros [? ?]|]. by intros [? _].
    + split; [by intros [? ?]|]. by intros [? _].
    + split; eauto.
    + intros code p [= <- _]. by right.
Qed.

(** X7.  An error of [ListenAndServe] is dropped: when everything before
    it succeeded and it fails, the process ends with status 0, both handlers
    registered and both pages cached, and the last thing it logged is the
    call of [ListenAndServe] on [":8080"], with no fatal message anywhere. *)
Theorem listen_error_is_dropped os err :
  startup_ok os → os_listen os = Some err →
  ∃ p, main os init_proc = Exited 0 p ∧
    last (log p) = Some (EvListenAndServe ":8080") ∧
    Forall (λ e, match e with EvFatal _ => False | _ => True end) (log p) ∧
    mux p = [("/", HRoot); ("/about", HAbout)] ∧
    ∀ page, page ∈ pages → is_Some (cache p !! page).
Proof.
  intros (dir & Hwd & Hall) Hl.
  destruct (main_past_loop os dir Hwd Hall)
    as (p1 & _ & _ & Hlog & Hcache & _ & Hmain).
  rewrite Hl in Hmain. simpl in Hmain. eexists. split; [exact Hmain|]. simpl.
  split; [|split; [|split; [done|done]]].
  - rewrite Hlog. done.
  - rewrite Hlog. by repeat constructor.
Qed.

(** X8.  What a started server has done, in order: printed the working
    directory, composed ["home"] and then ["about"], registered ["/"] and
    then ["/about"], printed ["Serving..."] and called [ListenAndServe] on
    [":8080"].  Both registrations come after the last [ParseFiles]. *)
Theorem startup_log os p :
  main os init_proc = Running tt p →
  ∃ dir, os_getwd os = inr dir ∧
    log p =
      [EvPrintln ("Working directory:  " ++ dir)%string] ++
      compose_events dir "home" ++ compose_events dir "about" ++
      [EvHandleFunc "/"; EvHandleFunc "/about";
       EvPrintln "Serving..."; EvListenAndServe ":8080"].
Proof.
  intros Hmain.
  destruct (main_cases os)
    as [(Hok & Hl & _) | [(_ & _ & p0 & Hmain') | (_ & p0 & Hmain')]];
    [|congruence..].
  destruct Hok as (dir & Hwd & Hall). exists dir. split; [done|].
  destruct (main_past_loop os dir Hwd Hall) as (p1 & _ & _ & Hlog & _ & _ & Hm).
  rewrite Hl, Hmain in Hm. simpl in Hm. injection Hm as ->. simpl.
  rewrite Hlog. done.
Qed.

(** X9.  The loop stops at the first page that does not compose: after the
    events of the pages before it and of the failing page come the fatal
    message with the error of [ParseFiles], and the exit with status 1.
    No file of a later page is parsed, and neither the failing page nor a
    later one enters the cache. *)
Theorem compose_all_stops_at_first_failure os dir ok bad later p err :
  (∀ page, page ∈ ok → is_Some (result_of (compose os dir page init_proc))) →
  template_ParseFiles (os_files os)
    (template_Funcs (template_New "layout.tmpl") funcMap)
    (fragment_files dir bad) = inl err →
  ∃ p', compose_all os dir (ok ++ bad :: later) p = Exited 1 p' ∧
    log p' = log p ++ (ok ≫= compose_events dir) ++ compose_events dir bad ++
             [EvFatal ("error parsing files: " ++ err)%string] ∧
    ∀ page, page ∉ ok → cache p' !! page = cache p !! page.
Proof.
  intros Hall Hbad. rewrite compose_all_app.
  destruct (compose_all_ok os dir ok p Hall) as (p1 & Hrun & Hlog & _).
  rewrite Hrun. simpl. unfold bind. rewrite compose_unfold, Hbad.
  eexists. split; [done|]. simpl. split.
  - rewrite Hlog. unfold compose_events. by rewrite <-!app_assoc.
  - intros page Hin. by apply (compose_all_other _ _ _ _ _ Hrun).
Qed.

(** X10.  While requests are served, the cache holds a unit for ["home"],
    one for ["about"], and nothing else. *)
Theorem cache_holds_exactly_the_pages os q page :
  serving os q → is_Some (cache q !! page) ↔ page ∈ pages.
Proof.
  intros (p & Hmain & -> & _)%serving_inv.
  destruct (main_cases os)
    as [(Hok & Hl & _) | [(_ & _ & p0 & Hmain') | (_ & p0 & Hmain')]];
    [|congruence..].
  destruct Hok as (dir & Hwd & Hall).
  destruct (main_past_loop os dir Hwd Hall)
    as (p1 & _ & _ & _ & Hin & Hout & Hm).
  rewrite Hl, Hmain in Hm. simpl in Hm. injection Hm as ->. simpl.
  split; [|apply Hin].
  intros Hsome. destruct (decide (page ∈ pages)) as [|Hnot]; [done|].
  rewrite (Hout page Hnot) in Hsome. by destruct Hsome.
Qed.

(** X11.  While requests are served, no handler finds its page missing
    from the cache: a request is never aborted by the nil dereference of
    [cache[page].Execute]. *)
Theorem handlers_never_miss_the_cache os q r :
  serving os q → result_of (serve r q) ≠ Some Aborted.
Proof.
  intros (dir & _ & _ & Hmux & Hc)%serving_state.
  destruct (Hc "home") as (home & Hhome & _); [by left|].
  destruct (Hc "about") as (about & Habout & _); [by right; left|].
  unfold serve, get_mux, bind. rewrite Hmux.
  destruct (mux_match _ r) as [pattern|]; [|done]. simpl.
  repeat case_decide; simpl; rewrite ?render_unfold, ?Hhome, ?Habout; simpl;
    try done.
  - by destruct (template_Execute home home_data).2.
  - by destruct (template_Execute about ANil).2.
Qed.

(** X13.  A sequence of requests that are all answered gets, request by
    request, the responses each would get if it were the first, and leaves
    the server serving. *)
Theorem serve_all_responses os rs : ∀ q xs q',
  serving os q → serve_all rs q = Running xs q' →
  Forall2 (λ r x, result_of (serve r q) = Some x) rs xs ∧ serving os q'.
Proof.
  induction rs as [|r rs IH]; intros q xs q' Hq; simpl.
  - intros [= <- <-]. by split.
  - unfold bind, ret.
    destruct (serve r q) as [x q1|code q1] eqn:Hserve; [|done].
    destruct (serve_all rs q1) as [xs' q2|code q2] eqn:Hrest; [|done].
    intros [= <- <-].
    assert (serving os q1) as Hq1 by by eapply serving_step.
    destruct (IH q1 xs' q2 Hq1 Hrest) as [Hall Hq2]. split; [|done].
    constructor; [by rewrite Hserve|].
    eapply Forall2_impl; [exact Hall|]. intros r' x' Hx'. simpl in Hx'.
    destruct (serving_same_cache _ _ _ Hq Hq1) as [Hc Hm].
    by rewrite (serve_result_ext q q1 r') by done.
Qed.
End ProcessExtras.

(** * The claims at concrete inputs *)

Import Demo.

(** To evaluate a run without normalising the closures its states hold,
    only its result is computed. *)
Lemma running_eta `{TemplateEngine} {A : Type} (o : outcome A) (a : A) :
  result_of o = Some a → o = Running a (state_of o).
Proof. destruct o; simpl; congruence. Qed.

Lemma running_eta_default `{TemplateEngine} {A : Type} (o : outcome A) (d : A) :
  is_Some (result_of o) → o = Running (default d (result_of o)) (state_of o).
Proof. intros [a Ha]. rewrite Ha. by apply running_eta. Qed.

Lemma cached_Some (p : Proc) (page : string) :
  is_Some (cache p !! page) → cache p !! page = Some (cached p page).
Proof. intros [t Ht]. unfold cached. by rewrite Ht. Qed.

Lemma started_good : main os_good init_proc = Running tt (started os_good).
Proof. apply (running_eta (main os_good init_proc) tt). by vm_compute. Qed.

Lemma started_bad_call :
  main os_bad_call init_proc = Running tt (started os_bad_call).
Proof. apply (running_eta (main os_bad_call init_proc) tt). by vm_compute. Qed.

Lemma cache_complete_before_first_request_witness :
  let p := started os_good in
  main os_good init_proc = Running tt p ∧
  listening p = true ∧
  mux p = [("/", HRoot); ("/about", HAbout)] ∧
  ∀ q, serving os_good q →
    cache q = cache p ∧ ∀ r, cache (state_of (serve r q)) = cache p.
Proof.
  intros p. split; [exact started_good|].
  destruct (cache_complete_before_first_request os_good p started_good)
    as (Hl & _ & Hm & _ & Hc).
  exact (conj Hl (conj Hm Hc)).
Defined.

Lemma handlers_render_cached_units_witness :
  let q := started os_good in
  let r := get "/nonexistent" in
  serving os_good q ∧
  mux_match (mux q).*1 r = Some "/" ∧
  ∃ home, cache q !! "home" = Some home ∧
    result_of (serve r q) = Some (Body (template_Execute home home_data).1).
Proof.
  intros q r.
  assert (serving os_good q) as Hq by exact (serving_start _ _ started_good).
  assert (mux_match (mux q).*1 r = Some "/") as Hmatch
    by (vm_compute; reflexivity).
  split; [exact Hq|]. split; [exact Hmatch|].
  destruct (handlers_render_cached_units os_good q r Hq)
    as (home & about & Hhome & _ & Hserve).
  exists home. split; [exact Hhome|].
  apply (Hserve "/" home home_data Hmatch); [by left|].
  assert (home = cached q "home") as -> by (unfold cached; by rewrite Hhome).
  by vm_compute.
Defined.

Lemma compose_failure_exits_before_serving_witness :
  os_getwd os_no_about = inr "/srv" ∧ "about" ∈ pages ∧
  result_of (compose os_no_about "/srv" "about" init_proc) = None ∧
  ∃ p, main os_no_about init_proc = Exited 1 p ∧
    listening p = false ∧ mux p = [] ∧
    Forall (λ e, match e with
                 | EvHandleFunc _ | EvListenAndServe _ | EvExecute _ _ _ => False
                 | _ => True
                 end) (log p) ∧
    ∀ q', ¬ serving os_no_about q'.
Proof.
  assert (os_getwd os_no_about = inr "/srv") as Hwd by reflexivity.
  assert ("about" ∈ pages) as Hpage by (right; left).
  assert (result_of (compose os_no_about "/srv" "about" init_proc) = None)
    as Hfail by (vm_compute; reflexivity).
  split; [exact Hwd|]. split; [exact Hpage|]. split; [exact Hfail|].
  exact (compose_failure_exits_before_serving os_no_about "/srv" "about"
           init_proc Hwd Hpage Hfail).
Defined.

Lemma render_failure_exits_witness :
  let q := started os_bad_call in
  let r := get "/about" in
  let t := cached q "about" in
  let err := "error calling dict: invalid dict call" in
  serving os_bad_call q ∧
  mux_match (mux q).*1 r = Some "/about" ∧
  ("/about", "about", ANil) ∈ routes ∧
  cache q !! "about" = Some t ∧
  (template_Execute t ANil).2 = Some err ∧
  ∃ q', serve r q = Exited 1 q' ∧
    log q' = (log q ++ [EvExecute t ANil (template_Execute t ANil).1;
                        EvFatal ("can't execute template. " ++ err)%string])%list ∧
    ∀ rs, serve_all (r :: rs) q = Exited 1 q'.
Proof.
  intros q r t err.
  assert (serving os_bad_call q) as Hq
    by exact (serving_start _ _ started_bad_call).
  assert (mux_match (mux q).*1 r = Some "/about") as Hmatch
    by (vm_compute; reflexivity).
  assert (("/about", "about", ANil) ∈ routes) as Hroute by (right; left).
  assert (cache q !! "about" = Some t) as Ht.
  { apply cached_Some, (bool_decide_unpack _). by vm_compute. }
  assert ((template_Execute t ANil).2 = Some err) as Herr
    by (vm_compute; reflexivity).
  repeat (split; [assumption|]).
  exact (render_failure_exits os_bad_call q r "/about" "about" ANil t err
           Hq Hmatch Hroute Ht Herr).
Defined.

(** * Further properties of [dict] *)

Section DictMore.
Implicit Types (values rest xs ys : list any) (d m : gmap string any).
Local Open Scope list_scope.

Lemma bind_pairs_Err_msg rest : ∀ d msg,
  bind_pairs rest d = Err msg → msg = "dict keys must be strings"%string.
Proof.
  induction rest as [|k0|k0 v0 rest IH] using pairs_ind; intros d msg; simpl.
  - done.
  - destruct (asString k0); congruence.
  - destruct (asString k0); [apply IH | congruence].
Qed.

Lemma dict_Err_cases values msg :
  dict values = Err msg ↔
    (msg = "invalid dict call"%string ∧ Nat.Odd (length values)) ∨
    (msg = "dict keys must be strings"%string ∧
       ¬ Nat.Odd (length values) ∧ bad_key values).
Proof.
  destruct (odd_or_even (length values)) as [Hodd|Hev].
  - rewrite dict_odd by done. split.
    + intros [= <-]. by left.
    + intros [[-> _] | (_ & Hev & _)]; done.
  - rewrite dict_even by done. split.
    + intros Herr. right.
      rewrite (bind_pairs_Err_msg _ _ _ Herr) in *.
      repeat split; [done|]. apply (bind_pairs_Err values ∅). eauto.
    + intros [[_ Hodd] | (-> & _ & Hbad)]; [done|].
      apply (bind_pairs_Err values ∅) in Hbad as [msg' Hmsg].
      by rewrite (bind_pairs_Err_msg _ _ _ Hmsg) in Hmsg.
Qed.

(** The loop on a sequence that continues after an even prefix. *)
Lemma bind_pairs_app xs : ∀ ys d m,
  bind_pairs xs d = Ok m → bind_pairs (xs ++ ys) d = bind_pairs ys m.
Proof.
  induction xs as [|k0|k0 v0 xs IH] using pairs_ind; intros ys d m; simpl.
  - by intros [= <-].
  - by destruct (asString k0).
  - destruct (asString k0); [apply IH | done].
Qed.

(** Starting the loop from a map [d] is starting it from the empty map and
    keeping the bindings of [d] for the keys the loop did not set. *)
Lemma bind_pairs_union rest : ∀ d,
  bind_pairs rest d = result_map (λ m, m ∪ d) (bind_pairs rest ∅).
Proof.
  induction rest as [|k0|k0 v0 rest IH] using pairs_ind; intros d; simpl.
  - by rewrite (left_id_L ∅ (∪)).
  - by destruct (asString k0).
  - destruct (asString k0) as [key|]; [|done].
    rewrite (IH (<[key:=v0]> d)), (IH (<[key:=v0]> ∅)).
    destruct (bind_pairs rest ∅) as [m| |]; simpl; [|done..].
    f_equal. rewrite insert_empty, <-(assoc_L (∪)).
    by rewrite <-insert_union_singleton_l.
Qed.

Lemma length_args_of (l : list (string * any)) :
  length (args_of l) = 2 * length l.
Proof. induction l as [|[k v] l IH]; simpl; lia. Qed.

Lemma bind_pairs_args_of (l : list (string * any)) : ∀ d,
  bind_pairs (args_of l) d = Ok (list_to_map (reverse l) ∪ d).
Proof.
  induction l as [|[k v] l IH]; intros d; simpl.
  - by rewrite (left_id_L ∅ (∪)).
  - rewrite IH, reverse_cons, list_to_map_app. simpl.
    rewrite insert_empty, <-(assoc_L (∪)).
    by rewrite <-insert_union_singleton_l.
Qed.

Lemma bind_pairs_size rest : ∀ d m,
  bind_pairs rest d = Ok m → (2 * size m ≤ 2 * size d + length rest)%nat.
Proof.
  induction rest as [|k0|k0 v0 rest IH] using pairs_ind; intros d m; simpl.
  - intros [= <-]. lia.
  - by destruct (asString k0).
  - destruct (asString k0) as [key|]; [|done].
    intros Hok%IH. pose proof (map_size_insert key v0 d) as Hsize.
    destruct (d !! key); simpl in Hsize; lia.
Qed.

(** The keys of a result are the strings at the key positions. *)
Lemma dict_dom values m k :
  dict values = Ok m →
  is_Some (m !! k) ↔ ∃ i, Nat.Even i ∧ values !! i = Some (AString k).
Proof.
  intros Hok.
  destruct (dict_lookup _ _ k Hok)
    as [[Hnone Hno] | (i & v & (Hev & Hk & _) & _ & Hv)].
  - rewrite Hnone. split; [by intros [? ?]|].
    intros (i & Hev & Hk). by destruct (Hno i Hev).
  - rewrite Hv. split; eauto.
Qed.

Lemma dict_args_of_list (l : list (string * any)) :
  dict (args_of l) = Ok (list_to_map (reverse l)).
Proof.
  rewrite dict_even.
  - by rewrite bind_pairs_args_of, (right_id_L ∅ (∪)).
  - rewrite length_args_of. intros [x Hx]. lia.
Qed.
End DictMore.

Section DictExtras.
Implicit Types (values xs ys : list any) (m : gmap string any).
Local Open Scope list_scope.

Lemma not_odd_even (n : nat) : ¬ Nat.Odd n ↔ Nat.Even n.
Proof.
  split.
  - intros Hodd. by destruct (Nat.Even_or_Odd n).
  - intros Hev Hodd. by apply (Nat.Even_Odd_False n).
Qed.

(** X1.  The length check comes first: [dict] reports ["invalid dict call"]
    exactly on a sequence of odd length, whatever its keys are, and
    ["dict keys must be strings"] exactly on a sequence of even length with
    a key position that holds no string.  It reports no other error. *)
Theorem dict_length_check_comes_first values :
  (dict values = Err "invalid dict call" ↔ Nat.Odd (length values)) ∧
  (dict values = Err "dict keys must be strings" ↔
     Nat.Even (length values) ∧ bad_key values) ∧
  (∀ msg, dict values = Err msg →
     msg = "invalid dict call"%string ∨ msg = "dict keys must be strings"%string).
Proof.
  split; [split | split; [split|]].
  - intros [[_ Hodd] | [[=] _]]%dict_Err_cases. done.
  - intros Hodd. apply dict_Err_cases. by left.
  - intros [[[=] _] | (_ & Hev & Hbad)]%dict_Err_cases.
    split; [by apply not_odd_even | done].
  - intros [Hev Hbad]. apply dict_Err_cases. right.
    by rewrite not_odd_even.
  - intros msg [[-> _] | (-> & _)]%dict_Err_cases; [by left | by right].
Qed.

(** X2.  Arguments compose by concatenation: when [dict] succeeds on [xs]
    and on [ys], it succeeds on [xs] followed by [ys], and the result is the
    result for [ys] completed by the bindings of the result for [xs] for
    the keys [ys] does not set. *)
Theorem dict_app xs ys mx my :
  dict xs = Ok mx → dict ys = Ok my → dict (xs ++ ys) = Ok (my ∪ mx).
Proof.
  intros Hxs Hys.
  pose proof (dict_Ok_even _ _ Hxs) as Hex.
  pose proof (dict_Ok_even _ _ Hys) as Hey.
  rewrite dict_even in Hxs, Hys by done.
  rewrite dict_even.
  - rewrite (bind_pairs_app _ _ _ _ Hxs), bind_pairs_union, Hys. done.
  - rewrite not_odd_even in *. rewrite length_app.
    destruct Hex as [a ->], Hey as [b ->]. exists (a + b). lia.
Qed.

Lemma dict_app_witness :
  let xs := [AString "a"; AInt 1; AString "b"; AInt 2] in
  let ys := [AString "a"; AInt 3] in
  let mx : gmap string any := {[ "a" := AInt 1; "b" := AInt 2 ]} in
  let my : gmap string any := {[ "a" := AInt 3 ]} in
  dict xs = Ok mx ∧ dict ys = Ok my ∧ dict (xs ++ ys) = Ok (my ∪ mx).
Proof.
  intros xs ys mx my.
  assert (dict xs = Ok mx) as Hxs by (vm_compute; reflexivity).
  assert (dict ys = Ok my) as Hys by (vm_compute; reflexivity).
  exact (conj Hxs (conj Hys (dict_app xs ys mx my Hxs Hys))).
Defined.

(** X3.  [dict] applied to a list of bindings spelled out as arguments
    returns the map of these bindings in which a later binding of a key
    replaces an earlier one; applied to the bindings of a map, in the order
    the map lists them, it returns that map. *)
Theorem dict_args_of_bindings :
  (∀ l : list (string * any),
     dict (args_of l) = Ok (list_to_map (reverse l))) ∧
  (∀ m, dict (args_of (map_to_list m)) = Ok m).
Proof.
  split; [apply dict_args_of_list|].
  intros m. rewrite dict_args_of_list. f_equal.
  rewrite <-(list_to_map_to_list m) at 2.
  symmetry. apply list_to_map_proper.
  - apply NoDup_fst_map_to_list.
  - symmetry. apply reverse_Permutation.
Qed.

(** X4.  The map [dict] returns has at most as many keys as the capacity
    [len(values)/2] it is created with. *)
Theorem dict_size_within_capacity values m :
  dict values = Ok m → (size m ≤ length values `div` 2)%nat.
Proof.
  intros Hok. pose proof (dict_Ok_even _ _ Hok) as Hev.
  rewrite dict_even in Hok by done.
  apply bind_pairs_size in Hok. rewrite map_size_empty in Hok.
  apply Nat.div_le_lower_bound; lia.
Qed.

Lemma dict_size_within_capacity_witness :
  let values := [AString "a"; AInt 1; AString "b"; AInt 2; AString "a"; AInt 3] in
  let m : gmap string any := {[ "a" := AInt 3; "b" := AInt 2 ]} in
  dict values = Ok m ∧ (size m ≤ length values `div` 2)%nat.
Proof.
  intros values m.
  assert (dict values = Ok m) as Hok by (vm_compute; reflexivity).
  exact (conj Hok (dict_size_within_capacity values m Hok)).
Defined.

(** X5.  [dict] looks at the length and at the key positions only: two
    sequences of the same length that agree on their key positions fail
    with the same errors, and when both succeed the results have the same
    keys.  What stands at a value position is never examined. *)
Theorem dict_ignores_value_positions values values' :
  length values = length values' →
  (∀ i, Nat.Even i → values !! i = values' !! i) →
  (∀ msg, dict values = Err msg ↔ dict values' = Err msg) ∧
  (∀ m m', dict values = Ok m → dict values' = Ok m' → dom m = dom m').
Proof.
  intros Hlen Hkeys.
  assert (bad_key values ↔ bad_key values') as Hbad.
  { split; intros (i & v & Hev & Hv & Hs); exists i, v;
      (split; [done|]); (split; [|done]).
    - by rewrite <-Hkeys.
    - by rewrite Hkeys. }
  split.
  - intros msg. by rewrite !dict_Err_cases, Hlen, Hbad.
  - intros m m' Hm Hm'. apply set_eq. intros k.
    rewrite !elem_of_dom, (dict_dom _ _ k Hm), (dict_dom _ _ k Hm').
    split; intros (i & Hev & Hk); exists i; (split; [done|]).
    + by rewrite <-Hkeys.
    + by rewrite Hkeys.
Qed.

Lemma dict_ignores_value_positions_witness :
  let values := [AString "a"; AInt 1; AString "b"; ANil] in
  let values' := [AString "a"; AMap ∅; AString "b"; AString "a"] in
  length values = length values' ∧
  (∀ i, Nat.Even i → values !! i = values' !! i) ∧
  (∀ msg, dict values = Err msg ↔ dict values' = Err msg) ∧
  (∀ m m', dict values = Ok m → dict values' = Ok m' → dom m = dom m').
Proof.
  intros values values'.
  assert (length values = length values') as Hlen by reflexivity.
  assert (∀ i, Nat.Even i → values !! i = values' !! i) as Hkeys.
  { intros i Hi.
    destruct i as [|[|[|[|i]]]]; try done; destruct Hi as [x Hx]; lia. }
  split; [exact Hlen|]. split; [exact Hkeys|].
  exact (dict_ignores_value_positions values values' Hlen Hkeys).
Defined.

(** X14.  The order of the arguments matters only between pairs with the
    same key: two lists of bindings with pairwise distinct keys that are
    permutations of one another give the same map. *)
Theorem dict_order_of_distinct_keys (l1 l2 : list (string * any)) :
  NoDup l1.*1 → l1 ≡ₚ l2 → dict (args_of l1) = dict (args_of l2).
Proof.
  intros Hnodup Hperm. rewrite !dict_args_of_list. f_equal.
  apply list_to_map_proper.
  - rewrite fmap_reverse. by rewrite reverse_Permutation.
  - by rewrite !reverse_Permutation.
Qed.

Lemma dict_order_of_distinct_keys_witness :
  let l1 := [("color", AString "black"); ("text", AString "Home")] in
  let l2 := [("text", AString "Home"); ("color", AString "black")] in
  NoDup l1.*1 ∧ l1 ≡ₚ l2 ∧ dict (args_of l1) = dict (args_of l2).
Proof.
  intros l1 l2.
  assert (NoDup l1.*1) as Hnodup.
  { apply (bool_decide_unpack _). by vm_compute. }
  assert (l1 ≡ₚ l2) as Hperm by apply perm_swap.
  exact (conj Hnodup (conj Hperm
           (dict_order_of_distinct_keys l1 l2 Hnodup Hperm))).
Defined.
End DictExtras.

(** * The further properties of the process at concrete inputs *)

Import Scenarios.

Lemma composes_all (os : OS) :
  os_getwd os = inr "/srv" →
  bool_decide (is_Some (result_of (compose os "/srv" "home" init_proc))) →
  bool_decide (is_Some (result_of (compose os "/srv" "about" init_proc))) →
  startup_ok os.
Proof.
  intros Hwd Hhome%bool_decide_unpack Habout%bool_decide_unpack.
  exists "/srv". split; [done|].
  intros page [->|[->|[]%elem_of_nil]%elem_of_cons]%elem_of_cons; done.
Qed.

Lemma listen_error_is_dropped_witness :
  let err := "listen tcp :8080: bind: address already in use" in
  startup_ok os_port_taken ∧ os_listen os_port_taken = Some err ∧
  ∃ p, main os_port_taken init_proc = Exited 0 p ∧
    last (log p) = Some (EvListenAndServe ":8080") ∧
    Forall (λ e, match e with EvFatal _ => False | _ => True end) (log p) ∧
    mux p = [("/", HRoot); ("/about", HAbout)] ∧
    ∀ page, page ∈ pages → is_Some (cache p !! page).
Proof.
  intros err.
  assert (startup_ok os_port_taken) as Hok
    by (apply composes_all; [reflexivity | by vm_compute..]).
  assert (os_listen os_port_taken = Some err) as Hl by reflexivity.
  exact (conj Hok (conj Hl (listen_error_is_dropped os_port_taken err Hok Hl))).
Defined.

Lemma startup_log_witness :
  let p := started os_good in
  main os_good init_proc = Running tt p ∧
  ∃ dir, os_getwd os_good = inr dir ∧
    log p =
      ([EvPrintln ("Working directory:  " ++ dir)%string] ++
       compose_events dir "home" ++ compose_events dir "about" ++
       [EvHandleFunc "/"; EvHandleFunc "/about";
        EvPrintln "Serving..."; EvListenAndServe ":8080"])%list.
Proof.
  intros p.
  exact (conj started_good (startup_log os_good p started_good)).
Defined.

Lemma compose_all_stops_at_first_failure_witness :
  let err := "open /srv/templates/pages/about.tmpl: no such file or directory" in
  (∀ page, page ∈ ["home"] →
     is_Some (result_of (compose os_no_about "/srv" page init_proc))) ∧
  template_ParseFiles (os_files os_no_about)
    (template_Funcs (template_New "layout.tmpl") funcMap)
    (fragment_files "/srv" "about") = inl err ∧
  ∃ p', compose_all os_no_about "/srv" (["home"] ++ "about" :: ["contact"])
          init_proc = Exited 1 p' ∧
    log p' = (log init_proc ++ (["home"] ≫= compose_events "/srv") ++
              compose_events "/srv" "about" ++
              [EvFatal ("error parsing files: " ++ err)%string])%list ∧
    ∀ page, page ∉ ["home"] → cache p' !! page = cache init_proc !! page.
Proof.
  intros err.
  assert (∀ page, page ∈ ["home"] →
            is_Some (result_of (compose os_no_about "/srv" page init_proc)))
    as Hok.
  { intros page ->%list_elem_of_singleton.
    apply (bool_decide_unpack _). by vm_compute. }
  assert (template_ParseFiles (os_files os_no_about)
            (template_Funcs (template_New "layout.tmpl") funcMap)
            (fragment_files "/srv" "about") = inl err) as Hbad
    by (vm_compute; reflexivity).
  split; [exact Hok|]. split; [exact Hbad|].
  exact (compose_all_stops_at_first_failure os_no_about "/srv" ["home"] "about"
           ["contact"] init_proc err Hok Hbad).
Defined.

Lemma cache_holds_exactly_the_pages_witness :
  let q := started os_good in
  serving os_good q ∧ (is_Some (cache q !! "contact") ↔ "contact" ∈ pages).
Proof.
  intros q.
  assert (serving os_good q) as Hq by exact (serving_start _ _ started_good).
  exact (conj Hq (cache_holds_exactly_the_pages os_good q "contact" Hq)).
Defined.

Lemma handlers_never_miss_the_cache_witness :
  let q := started os_good in
  serving os_good q ∧ result_of (serve (get "/about") q) ≠ Some Aborted.
Proof.
  intros q.
  assert (serving os_good q) as Hq by exact (serving_start _ _ started_good).
  exact (conj Hq (handlers_never_miss_the_cache os_good q (get "/about") Hq)).
Defined.

Lemma serve_all_responses_witness :
  let q := started os_good in
  let rs := [get "/"; get "/about"; get "/"] in
  let xs := default [] (result_of (serve_all rs q)) in
  let q' := state_of (serve_all rs q) in
  serving os_good q ∧ serve_all rs q = Running xs q' ∧
  Forall2 (λ r x, result_of (serve r q) = Some x) rs xs ∧ serving os_good q'.
Proof.
  intros q rs xs q'.
  assert (serving os_good q) as Hq by exact (serving_start _ _ started_good).
  assert (serve_all rs q = Running xs q') as Hrun.
  { apply (running_eta_default (serve_all rs q) []), (bool_decide_unpack _).
    by vm_compute. }
  exact (conj Hq (conj Hrun (serve_all_responses os_good rs q xs q' Hq Hrun))).
Defined.
